(** * neuraltree: a tree of small neural networks (node.go)

    A shallow embedding of [node.go] over the real numbers, and the
    properties of its evaluation, parameter collection and
    serialization framing.

    Conventions.
    - [float64] is read as [R]: every statement about values is a
      statement in exact arithmetic.
    - A Go call either returns or panics: [outcome].
    - The packages [linalg], [autofunc], [neuralnet], [serializer] and
      [errors] are collaborators whose code is not part of node.go; the
      operations node.go calls are modelled in modules of the same
      names. *)

From Stdlib Require Import Reals String List Arith Bool Lia Lra.
From Stdlib.Strings Require Import Byte.
Import ListNotations.

Open Scope string_scope.
Open Scope list_scope.
Open Scope R_scope.

(* ================================================================= *)
(** ** Returning or panicking *)

(** What a panic carries: the string given to [panic(...)] by node.go
    itself, a failed single-value type assertion, or a run-time abort
    inside a collaborator (index out of range, dimension mismatch). *)
Inductive panic : Type :=
| PanicMsg (msg : string)
| PanicTypeAssertion
| PanicRuntime (msg : string).

Inductive outcome (A : Type) : Type :=
| Ret (a : A)
| Abort (p : panic).

Arguments Ret {A} a.
Arguments Abort {A} p.

Definition bind {A B : Type} (m : outcome A) (k : A -> outcome B) : outcome B :=
  match m with
  | Ret a => k a
  | Abort p => Abort p
  end.

Definition fmap {A B : Type} (f : A -> B) (m : outcome A) : outcome B :=
  bind m (fun a => Ret (f a)).

Notation "x <- m ;; k" := (bind m (fun x => k))
  (at level 61, m at next level, right associativity).

(* ================================================================= *)
(** ** Vectors *)

Definition Vector : Type := list R.

(** Componentwise combination of two lists, up to the shorter one. *)
Fixpoint zipWith {A B C : Type} (f : A -> B -> C) (l1 : list A) (l2 : list B) : list C :=
  match l1, l2 with
  | a :: l1', b :: l2' => f a b :: zipWith f l1' l2'
  | _, _ => []
  end.

(** Sum of the exponentials of the entries: the total probability
    mass of a vector of log-probabilities. *)
Definition sumExp (v : Vector) : R :=
  fold_right (fun x acc => exp x + acc) 0 v.

Module linalg.

(** Modelled from the spec: [Vector.MaxAbs] of the linalg package
    (maxAbsoluteValue), the largest absolute value of an entry, 0 for
    the empty vector. *)
Definition MaxAbs (v : Vector) : R :=
  fold_left (fun res x => Rmax res (Rabs x)) v 0.

End linalg.

(* ================================================================= *)
(** ** The differentiable-computation collaborator, value part *)

Module autofunc.

(** A [Result] is read through [Output()] only. *)
Definition Result : Type := Vector.

(** Modelled from the spec: add a scalar constant to every entry. *)
Definition AddScaler (v : Result) (s : R) : Result :=
  map (fun x => x + s) v.

(** Modelled from the spec: exponentiate every entry. *)
Definition Exp (v : Result) : Result := map exp v.

(** Modelled from the spec: natural logarithm of every entry. *)
Definition Log (v : Result) : Result := map ln v.

(** Modelled from the spec: elementwise addition of two vectors of
    equal length.  The spec gives no meaning to operands of unequal
    length; the model aborts there. *)
Definition Add (v1 v2 : Result) : outcome Result :=
  if Nat.eqb (length v1) (length v2)
  then Ret (zipWith Rplus v1 v2)
  else Abort (PanicRuntime "dimension mismatch").

(** Modelled from the spec: the sub-range [[i, j)] of a vector. *)
Definition Slice (v : Result) (i j : nat) : Result :=
  firstn (j - i) (skipn i v).

(** Modelled from the spec: add the first entry of [w] to every entry
    of [v]; reading the first entry of an empty vector is an index
    error. *)
Definition AddFirst (v w : Result) : outcome Result :=
  match w with
  | [] => Abort (PanicRuntime "index out of range")
  | s :: _ => Ret (map (fun x => x + s) v)
  end.

(** Modelled from the spec: pool a value for several downstream
    uses; on values this is plain application. *)
Definition Pool {A : Type} (r : Result) (f : Result -> A) : A := f r.

(** *** The gradient-propagating part

    An [RResult] carries [Output()] and [ROutput()], two vectors of
    one length: entry by entry, a value and its r-derivative. *)
Definition RResult : Type := list (R * R).

(** A trainable parameter ([autofunc.Variable]; [Variable] is a
    reserved word here). *)
Record Var : Type := mkVar { VarVector : Vector }.

(** The direction of differentiation: a vector per parameter. *)
Definition RVector : Type := list (Var * Vector).

Definition Output (r : RResult) : Vector := map fst r.
Definition ROutput (r : RResult) : Vector := map snd r.

(** Modelled from the spec: the same operations over differentiable
    values; each acts on the value part as its value-only form does
    and carries the r-derivative along by the usual rule. *)
Definition AddScalerR (r : RResult) (s : R) : RResult :=
  map (fun x => (fst x + s, snd x)) r.

(** Modelled from the spec: [Exp{}.ApplyR(rv, r)]; the exponential has
    no parameters, so the direction [rv] plays no part. *)
Definition ExpR (rv : RVector) (r : RResult) : RResult :=
  map (fun x => (exp (fst x), exp (fst x) * snd x)) r.

(** Modelled from the spec: [Log{}.ApplyR(rv, r)]. *)
Definition LogR (rv : RVector) (r : RResult) : RResult :=
  map (fun x => (ln (fst x), snd x / fst x)) r.

(** Modelled from the spec: elementwise addition of two differentiable
    vectors of equal length; as for [Add], the model aborts on unequal
    lengths. *)
Definition AddR (r1 r2 : RResult) : outcome RResult :=
  if Nat.eqb (length r1) (length r2)
  then Ret (zipWith (fun x y => (fst x + fst y, snd x + snd y)) r1 r2)
  else Abort (PanicRuntime "dimension mismatch").

(** Modelled from the spec: the sub-range [[i, j)]. *)
Definition SliceR (r : RResult) (i j : nat) : RResult :=
  firstn (j - i) (skipn i r).

(** Modelled from the spec: add the first entry of [w] to every entry
    of [r]. *)
Definition AddFirstR (r w : RResult) : outcome RResult :=
  match w with
  | [] => Abort (PanicRuntime "index out of range")
  | s :: _ => Ret (map (fun x => (fst x + fst s, snd x + snd s)) r)
  end.

(** Modelled from the spec: pooling, on values plain application. *)
Definition PoolR {A : Type} (r : RResult) (f : RResult -> A) : A := f r.

End autofunc.

(* ================================================================= *)
(** ** The scoring-network collaborator *)

Module neuralnet.

(** Modelled from the spec: a scoring network is an opaque function
    from an input vector to an output vector that also lists its
    trainable parameters; [ApplyR] is its gradient-propagating
    form. *)
Record Network : Type := mkNetwork {
  Apply : autofunc.Result -> autofunc.Result;
  ApplyR : autofunc.RVector -> autofunc.RResult -> autofunc.RResult;
  Parameters : list autofunc.Var
}.


End neuralnet.

Module errors.
Definition error : Type := string.
Definition New (msg : string) : error := msg.
End errors.

(* ================================================================= *)
(** ** node.go *)

(** [type Node struct { Network neuralnet.Network; Children []*Node }] *)
#[warnings="-register-all"]
Inductive Node : Type :=
  mkNode { Network : neuralnet.Network; Children : list Node }.

(** [logExpSum] computes log(e^v1 + e^v2). *)
Definition logExpSum (v1 v2 : autofunc.Result) : outcome autofunc.Result :=
  let maxVal := Rmax (linalg.MaxAbs v1) (linalg.MaxAbs v2) in
  let exp1 := autofunc.Exp (autofunc.AddScaler v1 (- maxVal)) in
  let exp2 := autofunc.Exp (autofunc.AddScaler v2 (- maxVal)) in
  expSum <- autofunc.Add exp1 exp2 ;;
  Ret (autofunc.AddScaler (autofunc.Log expSum) maxVal).

(** [logExpSumR] computes log(e^v1 + e^v2), r-operator version. *)
Definition logExpSumR (v1 v2 : autofunc.RResult) : outcome autofunc.RResult :=
  let rv : autofunc.RVector := [] in
  let maxVal := Rmax (linalg.MaxAbs (autofunc.Output v1))
                     (linalg.MaxAbs (autofunc.Output v2)) in
  let exp1 := autofunc.ExpR rv (autofunc.AddScalerR v1 (- maxVal)) in
  let exp2 := autofunc.ExpR rv (autofunc.AddScalerR v2 (- maxVal)) in
  expSum <- autofunc.AddR exp1 exp2 ;;
  Ret (autofunc.AddScalerR (autofunc.LogR rv expSum) maxVal).

Definition mismatchMsg : string :=
  "child node count must match network output size".

(** The body of the [for i := 0; i < len(w.Output()); i++] loop of
    [Apply], with [steps] iterations left to run from index [i].
    [child i] is [n.Children[i].Apply(input)]; [res] is [None] while
    the Go variable is still nil. *)
Fixpoint applyLoop (child : nat -> outcome autofunc.Result) (w : autofunc.Result)
    (steps i : nat) (res : option autofunc.Result) : outcome (option autofunc.Result) :=
  match steps with
  | O => Ret res
  | S steps' =>
      let weight := autofunc.Slice w i (i + 1) in
      childOut <- child i ;;
      weighted <- autofunc.AddFirst childOut weight ;;
      match res with
      | None => applyLoop child w steps' (S i) (Some weighted)
      | Some r =>
          r' <- logExpSum r weighted ;;
          applyLoop child w steps' (S i) (Some r')
      end
  end.

(** [n.Children[i]] followed by the call of its method: indexing past
    the end of the slice is a run-time panic. *)
Definition childAt {A : Type} (outs : list (outcome A)) (i : nat) : outcome A :=
  nth i outs (Abort (PanicRuntime "index out of range")).

(** What the closure given to [Pool] hands back: the accumulated
    result, which is non-nil as soon as the loop has run once. *)
Definition loopResult {A : Type} (res : outcome (option A)) : outcome A :=
  r <- res ;;
  match r with
  | Some v => Ret v
  | None => Abort (PanicRuntime "nil Result")
  end.

(** [Apply] runs the node on a given input, returning a vector of
    averaged decision leaves. *)
Fixpoint Apply (n : Node) (input : autofunc.Result) : outcome autofunc.Result :=
  match n with
  | mkNode net children =>
      let decisionWeights := neuralnet.Apply net input in
      if Nat.eqb (length children) 0 then Ret decisionWeights
      else if negb (Nat.eqb (length decisionWeights) (length children))
      then Abort (PanicMsg mismatchMsg)
      else
        autofunc.Pool decisionWeights (fun w =>
          loopResult
            (applyLoop (childAt (map (fun c => Apply c input) children))
                       w (length w) 0 None))
  end.

(** The loop of [ApplyR]. *)
Fixpoint applyLoopR (child : nat -> outcome autofunc.RResult) (w : autofunc.RResult)
    (steps i : nat) (res : option autofunc.RResult) : outcome (option autofunc.RResult) :=
  match steps with
  | O => Ret res
  | S steps' =>
      let weight := autofunc.SliceR w i (i + 1) in
      childOut <- child i ;;
      weighted <- autofunc.AddFirstR childOut weight ;;
      match res with
      | None => applyLoopR child w steps' (S i) (Some weighted)
      | Some r =>
          r' <- logExpSumR r weighted ;;
          applyLoopR child w steps' (S i) (Some r')
      end
  end.

(** [ApplyR] is the r-operator version of [Apply]. *)
Fixpoint ApplyR (n : Node) (rv : autofunc.RVector) (input : autofunc.RResult)
    : outcome autofunc.RResult :=
  match n with
  | mkNode net children =>
      let decisionWeights := neuralnet.ApplyR net rv input in
      if Nat.eqb (length children) 0 then Ret decisionWeights
      else if negb (Nat.eqb (length (autofunc.Output decisionWeights)) (length children))
      then Abort (PanicMsg mismatchMsg)
      else
        autofunc.PoolR decisionWeights (fun w =>
          loopResult
            (applyLoopR (childAt (map (fun c => ApplyR c rv input) children))
                        w (length (autofunc.Output w)) 0 None))
  end.

(** [Parameters] returns all of the parameters of the node's network,
    as well as those of its children. *)
Fixpoint Parameters (n : Node) : list autofunc.Var :=
  match n with
  | mkNode net children =>
      let res := [] ++ neuralnet.Parameters net in
      fold_left (fun res child => res ++ Parameters child) children res
  end.

(** [SerializerType] returns the unique ID for serializing nodes with
    the serializer package. *)
Definition SerializerType (n : Node) : string :=
  "github.com/unixpickle/neuraltree.Node".

(* ----------------------------------------------------------------- *)
(** *** Serialization framing *)

(** A value of the interface type [serializer.Serializer], by its
    dynamic type: a Node pointer, a [neuralnet.Network], a value of any
    other registered type (its type ID and payload), or the nil
    interface value that [make] fills a fresh slice with. *)
Inductive Serializer : Type :=
| SerNode (n : Node)
| SerNetwork (net : neuralnet.Network)
| SerOther (typeID : string) (data : list byte)
| SerNil.

(** [x.(neuralnet.Network)], the single-value form: panics unless the
    dynamic type is [neuralnet.Network]. *)
Definition assertNetwork (x : Serializer) : outcome neuralnet.Network :=
  match x with
  | SerNetwork net => Ret net
  | _ => Abort PanicTypeAssertion
  end.

(** The two-value assertion of [child] to a Node pointer: the node
    and [true], or nil and [false]. *)
Definition assertNode (x : Serializer) : option Node * bool :=
  match x with
  | SerNode n => (Some n, true)
  | _ => (None, false)
  end.

(** [lst[i] = x] on a slice; node.go only writes inside the slice. *)
Fixpoint setIndex {A : Type} (l : list A) (i : nat) (x : A) : list A :=
  match l, i with
  | [], _ => []
  | _ :: l', O => x :: l'
  | a :: l', S i' => a :: setIndex l' i' x
  end.

(** The [for i, c := range n.Children { list[i] = c }] loop of
    [Serialize], from index [i] on. *)
Fixpoint fillChildren (lst : list Serializer) (i : nat) (children : list Node)
    : list Serializer :=
  match children with
  | [] => lst
  | c :: children' => fillChildren (setIndex lst i (SerNode c)) (S i) children'
  end.

(** The [for i, child := range list[:len(list)-1]] loop of
    [DeserializeNode]: the children decoded so far, or [None] at the
    first element that is not a Node pointer. *)
Fixpoint decodeChildren (l : list Serializer) : option (list Node) :=
  match l with
  | [] => Some []
  | child :: l' =>
      match assertNode child with
      | (Some n, true) =>
          match decodeChildren l' with
          | Some ns => Some (n :: ns)
          | None => None
          end
      | _ => None
      end
  end.

Section Serialization.

(** The byte layout belongs to the serializer package: its two
    slice functions are taken as given. *)
Variable SerializeSlice : list Serializer -> list byte * option errors.error.
Variable DeserializeSlice : list byte -> list Serializer * option errors.error.

(** [Serialize] serializes the node. *)
Definition Serialize (n : Node) : list byte * option errors.error :=
  let lst := repeat SerNil (length (Children n) + 1) in
  let lst := fillChildren lst 0 (Children n) in
  let lst := setIndex lst (length lst - 1) (SerNetwork (Network n)) in
  SerializeSlice lst.

(** [DeserializeNode] deserializes a Node.  The result is the pair
    of a Node pointer and an error, each [None] when nil. *)
Definition DeserializeNode (d : list byte)
    : outcome (option Node * option errors.error) :=
  let '(lst, err) := DeserializeSlice d in
  match err with
  | Some e => Ret (None, Some e)
  | None =>
      if Nat.eqb (length lst) 0
      then Ret (None, Some (errors.New "invalid Node slice"))
      else
        let ok := false in
        net <- match nth_error lst (length lst - 1) with
               | Some x => assertNetwork x
               | None => Abort (PanicRuntime "index out of range")
               end ;;
        if negb ok
        then Ret (None, Some (errors.New "invalid Node slice"))
        else
          match decodeChildren (firstn (length lst - 1) lst) with
          | Some children => Ret (Some (mkNode net children), None)
          | None => Ret (None, Some (errors.New "invalid Node slice"))
          end
  end.

End Serialization.

(* ================================================================= *)
(** ** Notions used to state the properties *)

(** All nodes of the subtree rooted at [n], the node first, then the
    subtrees of its children in child order. *)
Fixpoint subnodes (n : Node) : list Node :=
  match n with
  | mkNode _ children => n :: flat_map subnodes children
  end.

(** The left-to-right pairwise accumulation of a list of vectors with
    [logExpSum], starting from an accumulator that may still be
    empty. *)
Fixpoint accumulate (ws : list Vector) (res : option Vector) : outcome (option Vector) :=
  match ws with
  | [] => Ret res
  | x :: ws' =>
      match res with
      | None => accumulate ws' (Some x)
      | Some r => r' <- logExpSum r x ;; accumulate ws' (Some r')
      end
  end.

(** [childOut_i] with the scalar [scores[i]] added to every entry. *)
Definition weightedOuts (outs : list Vector) (scores : Vector) : list Vector :=
  zipWith (fun o s => map (fun x => x + s) o) outs scores.

(** [log (sum_i exp (scores[i] + childOut_i[c]))]. *)
Definition logSumExpAt (scores : Vector) (outs : list Vector) (c : nat) : R :=
  ln (fold_right Rplus 0 (zipWith (fun s o => exp (s + nth c o 0)) scores outs)).

(** The mixture of the children's outputs over [classCount] classes. *)
Definition mixture (scores : Vector) (outs : list Vector) (classCount : nat) : Vector :=
  map (logSumExpAt scores outs) (seq 0 classCount).

(** A valid tree for an input: every leaf network gives [classCount]
    log-probabilities, every branch network gives one log-probability
    per child, and each of these vectors carries total mass 1. *)
#[warnings="-register-all"]
Inductive validTree (classCount : nat) (input : Vector) : Node -> Prop :=
| validLeaf : forall net,
    length (neuralnet.Apply net input) = classCount ->
    sumExp (neuralnet.Apply net input) = 1 ->
    validTree classCount input (mkNode net [])
| validBranch : forall net children,
    children <> [] ->
    length (neuralnet.Apply net input) = length children ->
    sumExp (neuralnet.Apply net input) = 1 ->
    Forall (validTree classCount input) children ->
    validTree classCount input (mkNode net children).

(** Every branch network of the tree gives as many scores as the
    branch has children ([out net] is the network's output). *)
#[warnings="-register-all"]
Inductive branchesMatch (out : neuralnet.Network -> Vector) : Node -> Prop :=
| branchesMatchNode : forall net children,
    (children <> [] -> length (out net) = length children) ->
    Forall (branchesMatch out) children ->
    branchesMatch out (mkNode net children).



(** An outcome that is not a panic raised by node.go itself. *)
Definition noNodePanic {A : Type} (o : outcome A) : Prop :=
  forall msg, o <> Abort (PanicMsg msg).

(* ================================================================= *)
(** ** Example trees and a stand-in codec *)

(** A network that ignores its input: constant scores with a zero
    r-derivative, and the given parameters. *)
Definition constNet (out : Vector) (params : list autofunc.Var) : neuralnet.Network :=
  neuralnet.mkNetwork (fun _ => out) (fun _ _ => map (fun x => (x, 0)) out) params.

Definition leaf (out : Vector) : Node := mkNode (constNet out []) [].

(** The log-probabilities of a fair coin. *)
Definition uniform2 : Vector := [ln (/ 2); ln (/ 2)].

(** A depth-1 binary tree over two classes. *)
Definition exampleTree : Node :=
  mkNode (constNet uniform2 []) [leaf uniform2; leaf uniform2].

(** A branch with one child whose network gives two scores. *)
Definition mismatchedNode : Node := mkNode (constNet [0; 0] []) [leaf [0]].

(** A well-sized root above the mismatched branch. *)
Definition panicTree : Node := mkNode (constNet [0] []) [mismatchedNode].

(** A stand-in for the serializer package: one tag byte per element;
    tag 1 decodes to the network [net], any other tag to a value of
    another registered type. *)
Definition demoSerializeSlice (l : list Serializer) : list byte * option errors.error :=
  (map (fun x => match x with
                 | SerNode _ => x00
                 | SerNetwork _ => x01
                 | SerOther _ _ => x02
                 | SerNil => x03
                 end) l, None).

Definition demoDeserializeSlice (net : neuralnet.Network) (d : list byte)
    : list Serializer * option errors.error :=
  (map (fun b => if Byte.eqb b x01 then SerNetwork net else SerOther "[]byte" [b]) d,
   None).


(* ================================================================= *)
(** ** Construction of a binary tree *)

(** The layers written in the network literals of [NewNodeBinTree]. *)
Inductive Layer : Type :=
| DenseLayer (InputCount OutputCount : nat)
| HyperbolicTangent
| LogSoftmaxLayer.

Section Construction.

(** The state of the random source, and [net.Randomize()] on a network
    literal: the network with its weights drawn, and the state left
    behind.  Both belong to the neuralnet package. *)
Variable Seed : Type.
Variable Randomize : list Layer -> Seed -> neuralnet.Network * Seed.

(** [NewNodeBinTree] creates a binary tree.  The depth specifies the
    number of non-leaf layers of the tree, so a depth of 0 implies a
    single node.  The node's network is randomized before its children
    are built, the first child before the second. *)
Fixpoint NewNodeBinTree (depth inSize hiddenSize classCount : nat) (seed : Seed)
    : Node * Seed :=
  match depth with
  | O =>
      let (net, seed) :=
        Randomize [DenseLayer inSize hiddenSize; HyperbolicTangent;
                   DenseLayer hiddenSize classCount; LogSoftmaxLayer] seed in
      (mkNode net [], seed)
  | S depth' =>
      let (net, seed) :=
        Randomize [DenseLayer inSize hiddenSize; HyperbolicTangent;
                   DenseLayer hiddenSize 2; LogSoftmaxLayer] seed in
      let (child0, seed) := NewNodeBinTree depth' inSize hiddenSize classCount seed in
      let (child1, seed) := NewNodeBinTree depth' inSize hiddenSize classCount seed in
      (mkNode net [child0; child1], seed)
  end.


End Construction.



(* ================================================================= *)
(** ** More notions used to state properties *)

(** The number of leaves of a tree. *)
Fixpoint leafCount (n : Node) : nat :=
  match n with
  | mkNode _ [] => 1
  | mkNode _ children => list_sum (map leafCount children)
  end.

(** A perfect binary tree of the given depth: every branch has exactly
    two children and every leaf lies [depth] branches below the root. *)
Fixpoint perfect (depth : nat) (n : Node) : Prop :=
  match depth with
  | O => Children n = []
  | S depth' =>
      exists child0 child1,
        Children n = [child0; child1] /\ perfect depth' child0 /\ perfect depth' child1
  end.





(* ================================================================= *)
(** ** Induction over trees *)

(** Structural induction on a node with the hypothesis available for
    every child. *)
Fixpoint Node_Forall_ind (P : Node -> Prop)
    (step : forall net children, Forall P children -> P (mkNode net children))
    (n : Node) {struct n} : P n :=
  match n with
  | mkNode net children =>
      step net children
        ((fix all (cs : list Node) : Forall P cs :=
            match cs with
            | [] => Forall_nil P
            | c :: cs' => Forall_cons c (Node_Forall_ind P step c) (all cs')
            end) children)
  end.

(* ================================================================= *)
(** ** Lists and the outcome monad *)

Lemma zipWith_length {A B C : Type} (f : A -> B -> C) (l1 : list A) (l2 : list B) :
  length l1 = length l2 -> length (zipWith f l1 l2) = length l1.
Proof.
  revert l2; induction l1 as [|a l1 IH]; intros [|b l2] H; simpl in *;
    try discriminate; auto.
Qed.

Lemma zipWith_map {A A' B B' C : Type} (f : A' -> B' -> C) (g : A -> A') (h : B -> B')
    (l1 : list A) (l2 : list B) :
  zipWith f (map g l1) (map h l2) = zipWith (fun a b => f (g a) (h b)) l1 l2.
Proof.
  revert l2; induction l1 as [|a l1 IH]; intros [|b l2]; simpl; auto.
  now rewrite IH.
Qed.

Lemma map_zipWith {A B C D : Type} (g : C -> D) (f : A -> B -> C)
    (l1 : list A) (l2 : list B) :
  map g (zipWith f l1 l2) = zipWith (fun a b => g (f a b)) l1 l2.
Proof.
  revert l2; induction l1 as [|a l1 IH]; intros [|b l2]; simpl; auto.
  now rewrite IH.
Qed.

Lemma zipWith_ext {A B C : Type} (f g : A -> B -> C) (l1 : list A) (l2 : list B) :
  (forall a b, f a b = g a b) -> zipWith f l1 l2 = zipWith g l1 l2.
Proof.
  intros E; revert l2; induction l1 as [|a l1 IH]; intros [|b l2]; simpl; auto.
  now rewrite E, IH.
Qed.

Lemma zipWith_swap {A B C : Type} (f : A -> B -> C) (l1 : list A) (l2 : list B) :
  zipWith f l1 l2 = zipWith (fun b a => f a b) l2 l1.
Proof.
  revert l2; induction l1 as [|a l1 IH]; intros [|b l2]; simpl; auto.
  now rewrite IH.
Qed.

Lemma nth_map_inside {A B : Type} (f : A -> B) (l : list A) (c : nat) (d : B) (d' : A) :
  (c < length l)%nat -> nth c (map f l) d = f (nth c l d').
Proof.
  revert c; induction l as [|a l IH]; intros [|c] H; simpl in *; try lia; auto.
  apply IH; lia.
Qed.

Lemma nth_zipWith_inside {A B C : Type} (f : A -> B -> C) (l1 : list A) (l2 : list B)
    (c : nat) (d : C) (d1 : A) (d2 : B) :
  (c < length l1)%nat -> length l1 = length l2 ->
  nth c (zipWith f l1 l2) d = f (nth c l1 d1) (nth c l2 d2).
Proof.
  revert l2 c; induction l1 as [|a l1 IH]; intros [|b l2] [|c] H E; simpl in *;
    try lia; auto.
  apply IH; lia.
Qed.

Lemma seq_nth_self (v : Vector) :
  map (fun c => nth c v 0) (seq 0 (length v)) = v.
Proof.
  apply nth_ext with (d := 0) (d' := 0).
  - now rewrite length_map, length_seq.
  - intros c H. rewrite length_map, length_seq in H.
    rewrite nth_map_inside with (d' := 0%nat) by now rewrite length_seq.
    now rewrite seq_nth.
Qed.

Lemma bind_Ret {A B : Type} (a : A) (k : A -> outcome B) : bind (Ret a) k = k a.
Proof. reflexivity. Qed.


(* ================================================================= *)
(** ** The log-sum-exp combinator *)

(** [MaxAbs] bounds the absolute value of every entry. *)
Lemma MaxAbs_bound (v : Vector) (x : R) :
  In x v -> Rabs x <= linalg.MaxAbs v.
Proof.
  unfold linalg.MaxAbs. generalize 0 as acc.
  assert (Hmono : forall (l : Vector) acc,
            acc <= fold_left (fun res y => Rmax res (Rabs y)) l acc).
  { induction l as [|y l IH]; intros acc; cbn [fold_left]; [lra|].
    eapply Rle_trans; [apply Rmax_l | apply IH]. }
  induction v as [|y v IH]; intros acc Hin; [destruct Hin|].
  cbn [fold_left]. destruct Hin as [<- | Hin].
  - eapply Rle_trans; [apply Rmax_r | apply Hmono].
  - apply IH, Hin.
Qed.

(** Removing the shared shift [m] in exact arithmetic. *)
Lemma shift_cancel (a b m : R) :
  ln (exp (a - m) + exp (b - m)) + m = ln (exp a + exp b).
Proof.
  unfold Rminus. rewrite !exp_plus, <- Rmult_plus_distr_r.
  rewrite ln_mult.
  - rewrite ln_exp. lra.
  - pose proof (exp_pos a); pose proof (exp_pos b); lra.
  - apply exp_pos.
Qed.

Lemma Add_same_length (v1 v2 : Vector) :
  length v1 = length v2 -> autofunc.Add v1 v2 = Ret (zipWith Rplus v1 v2).
Proof.
  intros E. unfold autofunc.Add. rewrite E, Nat.eqb_refl. reflexivity.
Qed.

(** What [logExpSum] computes, with the shift written out. *)
Lemma logExpSum_shifted (v1 v2 : Vector) :
  length v1 = length v2 ->
  logExpSum v1 v2 =
  Ret (zipWith (fun a b =>
         ln (exp (a - Rmax (linalg.MaxAbs v1) (linalg.MaxAbs v2))
             + exp (b - Rmax (linalg.MaxAbs v1) (linalg.MaxAbs v2)))
         + Rmax (linalg.MaxAbs v1) (linalg.MaxAbs v2)) v1 v2).
Proof.
  intros E. unfold logExpSum.
  unfold autofunc.Exp, autofunc.AddScaler, autofunc.Log.
  rewrite Add_same_length by now rewrite !length_map.
  rewrite bind_Ret. f_equal.
  rewrite !zipWith_map, !map_zipWith. reflexivity.
Qed.

(** In exact arithmetic [logExpSum] is the elementwise
    [log (exp v1 + exp v2)]. *)
Lemma logExpSum_exact (v1 v2 : Vector) :
  length v1 = length v2 ->
  logExpSum v1 v2 = Ret (zipWith (fun a b => ln (exp a + exp b)) v1 v2).
Proof.
  intros E. rewrite logExpSum_shifted by assumption. f_equal.
  apply zipWith_ext. intros a b. apply shift_cancel.
Qed.

(* ================================================================= *)
(** ** Unfolding [Apply] *)

Lemma Apply_leaf (net : neuralnet.Network) (input : Vector) :
  Apply (mkNode net []) input = Ret (neuralnet.Apply net input).
Proof. reflexivity. Qed.

Lemma length_nonempty {A : Type} (l : list A) :
  l <> [] -> Nat.eqb (length l) 0 = false.
Proof. destruct l; [congruence | reflexivity]. Qed.

Lemma Apply_mismatch (net : neuralnet.Network) (children : list Node) (input : Vector) :
  children <> [] ->
  length (neuralnet.Apply net input) <> length children ->
  Apply (mkNode net children) input = Abort (PanicMsg mismatchMsg).
Proof.
  intros Hne Hlen. simpl. rewrite (length_nonempty _ Hne).
  apply Nat.eqb_neq in Hlen. now rewrite Hlen.
Qed.

Lemma Apply_branch (net : neuralnet.Network) (children : list Node) (input : Vector) :
  children <> [] ->
  length (neuralnet.Apply net input) = length children ->
  Apply (mkNode net children) input =
  loopResult
    (applyLoop (childAt (map (fun c => Apply c input) children))
               (neuralnet.Apply net input)
               (length (neuralnet.Apply net input)) 0 None).
Proof.
  intros Hne Hlen. simpl. rewrite (length_nonempty _ Hne).
  rewrite (proj2 (Nat.eqb_eq _ _) Hlen). reflexivity.
Qed.

(** The slice [[i, i+1)] of the scores is the single score [i]. *)
Lemma Slice_single {A : Type} (pre : list A) (s : A) (post : list A) :
  firstn (length pre + 1 - length pre) (skipn (length pre) (pre ++ s :: post)) = [s].
Proof.
  replace (length pre + 1 - length pre)%nat with 1%nat by lia.
  rewrite skipn_app, Nat.sub_diag, skipn_all. reflexivity.
Qed.

Lemma childAt_middle {A : Type} (pre : list (outcome A)) (o : outcome A)
    (post : list (outcome A)) :
  childAt (pre ++ o :: post) (length pre) = o.
Proof.
  unfold childAt. rewrite app_nth2, Nat.sub_diag by lia. reflexivity.
Qed.

(** The loop of [Apply] is the left-to-right accumulation of the
    weighted child outputs, in child index order. *)
Lemma applyLoop_accumulate (outs : list Vector) :
  forall (w : Vector) (pre_o : list (outcome Vector)) (pre_w : Vector)
         (res : option Vector),
    length pre_o = length pre_w ->
    length outs = length w ->
    applyLoop (childAt (pre_o ++ map Ret outs)) (pre_w ++ w)
              (length w) (length pre_w) res
    = accumulate (weightedOuts outs w) res.
Proof.
  induction outs as [|o outs IH]; intros [|s w] pre_o pre_w res Hpre Hlen;
    simpl in Hlen; try discriminate; [reflexivity|].
  cbn [length applyLoop map]. unfold autofunc.Slice.
  rewrite Slice_single, <- Hpre, childAt_middle, bind_Ret.
  cbn [autofunc.AddFirst bind].
  assert (Hstep : forall r,
    applyLoop (childAt (pre_o ++ Ret o :: map Ret outs)) (pre_w ++ s :: w)
              (length w) (S (length pre_o)) r
    = accumulate (weightedOuts outs w) r).
  { intros r.
    specialize (IH w (pre_o ++ [Ret o]) (pre_w ++ [s]) r).
    rewrite <- !app_assoc in IH. cbn [app] in IH.
    rewrite !length_app in IH. cbn [length] in IH.
    rewrite <- Hpre, Nat.add_1_r in IH.
    apply IH; lia. }
  destruct res as [r|]; cbn [weightedOuts zipWith accumulate].
  - destruct (logExpSum r (map (fun x => x + s) o)); cbn [bind]; auto.
  - apply Hstep.
Qed.

Lemma map_Apply_outs (children : list Node) (outs : list Vector) (input : Vector) :
  Forall2 (fun c o => Apply c input = Ret o) children outs ->
  map (fun c => Apply c input) children = map Ret outs.
Proof.
  induction 1 as [|c o cs os H _ IH]; simpl; [reflexivity|].
  now rewrite H, IH.
Qed.

(** A branch whose children all return: the accumulation of the
    weighted child outputs. *)
Lemma Apply_accumulate (net : neuralnet.Network) (children : list Node)
    (outs : list Vector) (input : Vector) :
  children <> [] ->
  length (neuralnet.Apply net input) = length children ->
  Forall2 (fun c o => Apply c input = Ret o) children outs ->
  Apply (mkNode net children) input =
  loopResult (accumulate (weightedOuts outs (neuralnet.Apply net input)) None).
Proof.
  intros Hne Hlen Houts. rewrite Apply_branch by assumption.
  rewrite (map_Apply_outs _ _ _ Houts). f_equal.
  apply (applyLoop_accumulate outs (neuralnet.Apply net input) [] [] None);
    [reflexivity|].
  apply Forall2_length in Houts. rewrite Hlen. symmetry. exact Houts.
Qed.

(* ================================================================= *)
(** ** The accumulation in closed form *)

Lemma exp_sum_pos (a b : R) : 0 < exp a + exp b.
Proof. pose proof (exp_pos a); pose proof (exp_pos b); lra. Qed.

(** Accumulating vectors of one length [m] onto [r] gives, at every
    class, the log of the sum of all the exponentials. *)
Lemma accumulate_exact (m : nat) (ws : list Vector) :
  forall r : Vector,
    Forall (fun x => length x = m) ws -> length r = m ->
    accumulate ws (Some r) =
    Ret (Some (map (fun c => ln (exp (nth c r 0)
                                 + fold_right Rplus 0 (map (fun x => exp (nth c x 0)) ws)))
                   (seq 0 m))).
Proof.
  induction ws as [|x ws IH]; intros r Hall Hr.
  - cbn [accumulate map fold_right]. do 2 f_equal.
    rewrite <- (seq_nth_self r) at 1. rewrite Hr.
    apply map_ext. intros c. now rewrite Rplus_0_r, ln_exp.
  - inversion Hall as [|x' ws' Hx Hws]. clear Hall.
    cbn [accumulate]. rewrite logExpSum_exact by (rewrite Hr; symmetry; exact Hx).
    rewrite bind_Ret.
    rewrite IH;
      [| assumption | rewrite zipWith_length; [exact Hr | rewrite Hr; symmetry; exact Hx]].
    do 2 f_equal. apply map_ext_in. intros c Hc. apply in_seq in Hc.
    rewrite nth_zipWith_inside with (d1 := 0) (d2 := 0);
      [| rewrite Hr; lia | rewrite Hr; symmetry; exact Hx].
    rewrite exp_ln by apply exp_sum_pos.
    cbn [map fold_right]. f_equal. lra.
Qed.

Lemma weightedOuts_length (m : nat) (outs : list Vector) (scores : Vector) :
  Forall (fun o => length o = m) outs ->
  Forall (fun x => length x = m) (weightedOuts outs scores).
Proof.
  intros H; revert scores. induction H as [|o outs Ho _ IH]; intros [|s scores];
    cbn [weightedOuts zipWith]; constructor.
  - now rewrite length_map.
  - apply IH.
Qed.

Lemma weighted_sum_at (c m : nat) (outs : list Vector) (scores : Vector) :
  Forall (fun o => length o = m) outs -> (c < m)%nat ->
  fold_right Rplus 0 (map (fun x => exp (nth c x 0)) (weightedOuts outs scores))
  = fold_right Rplus 0 (zipWith (fun s o => exp (s + nth c o 0)) scores outs).
Proof.
  intros H Hc; revert scores. induction H as [|o outs Ho _ IH]; intros [|s scores];
    cbn [weightedOuts zipWith map fold_right]; try reflexivity.
  fold (weightedOuts outs scores). rewrite IH.
  rewrite nth_map_inside with (d' := 0) by (rewrite Ho; exact Hc).
  now rewrite (Rplus_comm s).
Qed.

(** The accumulation of the weighted child outputs is the mixture. *)
Lemma accumulate_mixture (m : nat) (outs : list Vector) (scores : Vector) :
  outs <> [] -> length outs = length scores ->
  Forall (fun o => length o = m) outs ->
  loopResult (accumulate (weightedOuts outs scores) None) = Ret (mixture scores outs m).
Proof.
  intros Hne Hlen Hall.
  destruct outs as [|o outs]; [congruence|].
  destruct scores as [|s scores]; [discriminate|].
  pose proof (weightedOuts_length _ _ (s :: scores) Hall) as Hw.
  pose proof (fun c Hc => weighted_sum_at c m (o :: outs) (s :: scores) Hall Hc) as Hsum.
  cbn [weightedOuts zipWith accumulate] in *.
  fold (weightedOuts outs scores) in *.
  inversion Hw as [|x ws Hx Hws]. clear Hw.
  rewrite (accumulate_exact _ _ _ Hws Hx). cbn [loopResult bind]. f_equal.
  unfold mixture. apply map_ext_in. intros c Hc. apply in_seq in Hc.
  unfold logSumExpAt. f_equal. cbn [zipWith]. rewrite <- Hsum by lia. reflexivity.
Qed.

(* ----------------------------------------------------------------- *)
(** *** Probability mass *)

Lemma sumExp_combine (a b : Vector) :
  length a = length b ->
  sumExp (zipWith (fun x y => ln (exp x + exp y)) a b) = sumExp a + sumExp b.
Proof.
  revert b; induction a as [|x a IH]; intros [|y b] H; simpl in H; try discriminate.
  - cbn. lra.
  - cbn [zipWith sumExp fold_right]. fold (sumExp (zipWith (fun x y => ln (exp x + exp y)) a b)).
    fold (sumExp a). fold (sumExp b).
    rewrite IH by lia. rewrite exp_ln by apply exp_sum_pos. lra.
Qed.

Lemma sumExp_shift (o : Vector) (s : R) :
  sumExp (map (fun x => x + s) o) = exp s * sumExp o.
Proof.
  induction o as [|x o IH]; cbn [map sumExp fold_right].
  - lra.
  - fold (sumExp (map (fun x => x + s) o)). fold (sumExp o).
    rewrite IH, exp_plus. lra.
Qed.

Lemma accumulate_mass (m : nat) (ws : list Vector) :
  forall r : Vector,
    Forall (fun x => length x = m) ws -> length r = m ->
    exists r' : Vector,
      accumulate ws (Some r) = Ret (Some r') /\ length r' = m /\
      sumExp r' = sumExp r + fold_right Rplus 0 (map sumExp ws).
Proof.
  induction ws as [|x ws IH]; intros r Hall Hr.
  - exists r. cbn. repeat split; auto. lra.
  - inversion Hall as [|x' ws' Hx Hws]. clear Hall.
    assert (E : length r = length x) by (rewrite Hr; symmetry; exact Hx).
    destruct (IH (zipWith (fun a b => ln (exp a + exp b)) r x) Hws) as (r' & Hacc & Hlen & Hsum).
    { rewrite zipWith_length; assumption. }
    exists r'. cbn [accumulate]. rewrite logExpSum_exact by exact E.
    rewrite bind_Ret. repeat split; auto.
    rewrite Hsum, sumExp_combine by exact E. cbn [map fold_right]. lra.
Qed.

Lemma weighted_mass (outs : list Vector) (scores : Vector) :
  length outs = length scores ->
  Forall (fun o => sumExp o = 1) outs ->
  fold_right Rplus 0 (map sumExp (weightedOuts outs scores)) = sumExp scores.
Proof.
  intros Hlen H; revert scores Hlen.
  induction H as [|o outs Ho _ IH]; intros [|s scores] Hlen; simpl in Hlen;
    try discriminate; [reflexivity|].
  cbn [weightedOuts zipWith map fold_right sumExp].
  fold (weightedOuts outs scores). fold (sumExp scores).
  rewrite IH by lia. rewrite sumExp_shift, Ho. lra.
Qed.

Lemma accumulate_valid (m : nat) (outs : list Vector) (scores : Vector) :
  outs <> [] -> length outs = length scores ->
  Forall (fun o => length o = m) outs ->
  Forall (fun o => sumExp o = 1) outs ->
  exists v : Vector,
    loopResult (accumulate (weightedOuts outs scores) None) = Ret v /\
    length v = m /\ sumExp v = sumExp scores.
Proof.
  intros Hne Hlen Hall Hmass.
  pose proof (weightedOuts_length _ _ scores Hall) as Hw.
  pose proof (weighted_mass outs scores Hlen Hmass) as Htotal.
  destruct outs as [|o outs]; [congruence|].
  destruct scores as [|s scores]; [discriminate|].
  cbn [weightedOuts zipWith accumulate] in *.
  fold (weightedOuts outs scores) in *.
  inversion Hw as [|x ws Hx Hws]. clear Hw.
  destruct (accumulate_mass _ _ _ Hws Hx) as (r' & Hacc & Hr' & Hsum).
  exists r'. rewrite Hacc. cbn [loopResult bind]. repeat split; auto.
  rewrite Hsum, <- Htotal. cbn [map fold_right]. reflexivity.
Qed.

(** The outputs of children that all return a valid distribution. *)
Lemma children_outputs (P : Vector -> Prop) (input : Vector) (children : list Node) :
  Forall (fun c => exists v, Apply c input = Ret v /\ P v) children ->
  exists outs : list Vector,
    Forall2 (fun c o => Apply c input = Ret o) children outs /\ Forall P outs.
Proof.
  induction 1 as [|c cs (v & Hv & HP) _ (outs & H2 & HF)].
  - exists []. split; constructor.
  - exists (v :: outs). split; constructor; assumption.
Qed.

Lemma validTree_returns (classCount : nat) (input : Vector) (n : Node) :
  validTree classCount input n ->
  exists v : Vector,
    Apply n input = Ret v /\ (length v = classCount /\ sumExp v = 1).
Proof.
  induction n as [net children IH] using Node_Forall_ind. intros Hvalid.
  inversion Hvalid as [net' Hlen Hmass | net' children' Hne Hlen Hmass Hkids];
    subst.
  - exists (neuralnet.Apply net input). rewrite Apply_leaf. auto.
  - assert (Hret : Forall (fun c => exists v, Apply c input = Ret v /\
                                  (length v = classCount /\ sumExp v = 1)) children).
    { rewrite Forall_forall in *. intros c Hc. apply IH; auto. }
    destruct (children_outputs _ input _ Hret) as (outs & Houts & Hall).
    rewrite (Apply_accumulate net _ _ _ Hne Hlen Houts).
    destruct (accumulate_valid classCount outs (neuralnet.Apply net input))
      as (v & Hv & Hl & Hs).
    + apply Forall2_length in Houts. destruct outs, children; simpl in *; congruence.
    + apply Forall2_length in Houts. rewrite Hlen. symmetry. exact Houts.
    + eapply Forall_impl; [|exact Hall]. intros o Ho. apply Ho.
    + eapply Forall_impl; [|exact Hall]. intros o Ho. apply Ho.
    + exists v. rewrite Hmass in Hs. auto.
Qed.

Lemma validTree_subnodes (classCount : nat) (input : Vector) (n : Node) :
  validTree classCount input n ->
  forall m, In m (subnodes n) -> validTree classCount input m.
Proof.
  induction n as [net children IH] using Node_Forall_ind. intros Hvalid m Hin.
  cbn [subnodes] in Hin. destruct Hin as [<- | Hin]; [assumption|].
  apply in_flat_map in Hin. destruct Hin as (c & Hc & Hm).
  rewrite Forall_forall in IH. apply (IH c Hc); [|assumption].
  inversion Hvalid as [net' Hlen Hmass | net' children' Hne Hlen Hmass Hkids]; subst.
  - destruct Hc.
  - rewrite Forall_forall in Hkids. auto.
Qed.

(* ================================================================= *)
(** ** Where the panic of node.go can come from *)

Lemma noNodePanic_Ret {A : Type} (a : A) : noNodePanic (Ret a).
Proof. intros msg; discriminate. Qed.

Lemma noNodePanic_runtime {A : Type} (msg : string) :
  noNodePanic (@Abort A (PanicRuntime msg)).
Proof. intros msg'; discriminate. Qed.

Lemma noNodePanic_bind {A B : Type} (m : outcome A) (k : A -> outcome B) :
  noNodePanic m -> (forall a, noNodePanic (k a)) -> noNodePanic (bind m k).
Proof.
  intros Hm Hk. destruct m as [a|p]; cbn [bind]; [apply Hk|].
  intros msg E. apply (Hm msg). congruence.
Qed.

Create HintDb nopanic.
#[local] Hint Resolve noNodePanic_Ret noNodePanic_runtime : nopanic.

Ltac no_panic :=
  repeat first
    [ apply noNodePanic_bind; [| intros ?]
    | solve [auto with nopanic] ].

Lemma Add_noNodePanic (v1 v2 : Vector) : noNodePanic (autofunc.Add v1 v2).
Proof. unfold autofunc.Add. destruct (Nat.eqb _ _); auto with nopanic. Qed.

Lemma AddR_noNodePanic (r1 r2 : autofunc.RResult) : noNodePanic (autofunc.AddR r1 r2).
Proof. unfold autofunc.AddR. destruct (Nat.eqb _ _); auto with nopanic. Qed.

Lemma AddFirst_noNodePanic (v w : Vector) : noNodePanic (autofunc.AddFirst v w).
Proof. destruct w; cbn; auto with nopanic. Qed.

Lemma AddFirstR_noNodePanic (r w : autofunc.RResult) :
  noNodePanic (autofunc.AddFirstR r w).
Proof. destruct w; cbn; auto with nopanic. Qed.

#[local] Hint Resolve Add_noNodePanic AddR_noNodePanic
  AddFirst_noNodePanic AddFirstR_noNodePanic : nopanic.

Lemma logExpSum_noNodePanic (v1 v2 : Vector) : noNodePanic (logExpSum v1 v2).
Proof. unfold logExpSum. no_panic. Qed.

Lemma logExpSumR_noNodePanic (v1 v2 : autofunc.RResult) :
  noNodePanic (logExpSumR v1 v2).
Proof. unfold logExpSumR. no_panic. Qed.

#[local] Hint Resolve logExpSum_noNodePanic logExpSumR_noNodePanic : nopanic.

Lemma childAt_noNodePanic {A : Type} (outs : list (outcome A)) (i : nat) :
  Forall noNodePanic outs -> noNodePanic (childAt outs i).
Proof.
  intros H. unfold childAt. revert i.
  induction H as [|o outs Ho _ IH]; intros [|i]; cbn [nth]; auto with nopanic.
Qed.

Lemma loopResult_noNodePanic {A : Type} (res : outcome (option A)) :
  noNodePanic res -> noNodePanic (loopResult res).
Proof.
  intros H. unfold loopResult. apply noNodePanic_bind; [exact H|].
  intros [v|]; auto with nopanic.
Qed.

Lemma applyLoop_noNodePanic (child : nat -> outcome Vector) (w : Vector) (steps : nat) :
  (forall j, noNodePanic (child j)) ->
  forall i res, noNodePanic (applyLoop child w steps i res).
Proof.
  intros Hchild. induction steps as [|steps IH]; intros i res; cbn [applyLoop].
  - auto with nopanic.
  - apply noNodePanic_bind; [apply Hchild | intros childOut].
    apply noNodePanic_bind; [auto with nopanic | intros weighted].
    destruct res as [r|]; [|apply IH].
    apply noNodePanic_bind; [auto with nopanic | intros r']. apply IH.
Qed.

Lemma applyLoopR_noNodePanic (child : nat -> outcome autofunc.RResult)
    (w : autofunc.RResult) (steps : nat) :
  (forall j, noNodePanic (child j)) ->
  forall i res, noNodePanic (applyLoopR child w steps i res).
Proof.
  intros Hchild. induction steps as [|steps IH]; intros i res; cbn [applyLoopR].
  - auto with nopanic.
  - apply noNodePanic_bind; [apply Hchild | intros childOut].
    apply noNodePanic_bind; [auto with nopanic | intros weighted].
    destruct res as [r|]; [|apply IH].
    apply noNodePanic_bind; [auto with nopanic | intros r']. apply IH.
Qed.

(** When every branch network gives one score per child, [Apply] never
    raises the panic of node.go. *)
Lemma Apply_noNodePanic (input : Vector) (n : Node) :
  branchesMatch (fun net => neuralnet.Apply net input) n ->
  noNodePanic (Apply n input).
Proof.
  induction n as [net children IH] using Node_Forall_ind. intros Hm.
  inversion Hm as [net' children' Hlen Hkids]; subst.
  destruct children as [|c cs]; [rewrite Apply_leaf; auto with nopanic|].
  rewrite Apply_branch by (try discriminate; apply Hlen; discriminate).
  apply loopResult_noNodePanic, applyLoop_noNodePanic.
  intros j. apply childAt_noNodePanic.
  rewrite Forall_forall in *. intros o Ho. apply in_map_iff in Ho.
  destruct Ho as (c' & <- & Hc'). apply IH; auto.
Qed.

Lemma ApplyR_leaf (net : neuralnet.Network) (rv : autofunc.RVector)
    (input : autofunc.RResult) :
  ApplyR (mkNode net []) rv input = Ret (neuralnet.ApplyR net rv input).
Proof. reflexivity. Qed.

Lemma ApplyR_mismatch (net : neuralnet.Network) (children : list Node)
    (rv : autofunc.RVector) (input : autofunc.RResult) :
  children <> [] ->
  length (autofunc.Output (neuralnet.ApplyR net rv input)) <> length children ->
  ApplyR (mkNode net children) rv input = Abort (PanicMsg mismatchMsg).
Proof.
  intros Hne Hlen. simpl. rewrite (length_nonempty _ Hne).
  apply Nat.eqb_neq in Hlen. now rewrite Hlen.
Qed.

Lemma ApplyR_branch (net : neuralnet.Network) (children : list Node)
    (rv : autofunc.RVector) (input : autofunc.RResult) :
  children <> [] ->
  length (autofunc.Output (neuralnet.ApplyR net rv input)) = length children ->
  ApplyR (mkNode net children) rv input =
  loopResult
    (applyLoopR (childAt (map (fun c => ApplyR c rv input) children))
                (neuralnet.ApplyR net rv input)
                (length (autofunc.Output (neuralnet.ApplyR net rv input))) 0 None).
Proof.
  intros Hne Hlen. simpl. rewrite (length_nonempty _ Hne).
  rewrite (proj2 (Nat.eqb_eq _ _) Hlen). reflexivity.
Qed.

Lemma ApplyR_noNodePanic (rv : autofunc.RVector) (input : autofunc.RResult) (n : Node) :
  branchesMatch (fun net => autofunc.Output (neuralnet.ApplyR net rv input)) n ->
  noNodePanic (ApplyR n rv input).
Proof.
  induction n as [net children IH] using Node_Forall_ind. intros Hm.
  inversion Hm as [net' children' Hlen Hkids]; subst.
  destruct children as [|c cs]; [rewrite ApplyR_leaf; auto with nopanic|].
  rewrite ApplyR_branch by (try discriminate; apply Hlen; discriminate).
  apply loopResult_noNodePanic, applyLoopR_noNodePanic.
  intros j. apply childAt_noNodePanic.
  rewrite Forall_forall in *. intros o Ho. apply in_map_iff in Ho.
  destruct Ho as (c' & <- & Hc'). apply IH; auto.
Qed.

(* ================================================================= *)
(** ** The value part of the gradient-propagating operations *)












(* ================================================================= *)
(** ** Parameter collection *)

Lemma fold_left_append {A B : Type} (f : A -> list B) (l : list A) (init : list B) :
  fold_left (fun res x => res ++ f x) l init = init ++ flat_map f l.
Proof.
  revert init. induction l as [|a l IH]; intros init; cbn [fold_left flat_map].
  - now rewrite app_nil_r.
  - now rewrite IH, app_assoc.
Qed.

Lemma Parameters_unfold (n : Node) :
  Parameters n = neuralnet.Parameters (Network n) ++ flat_map Parameters (Children n).
Proof.
  destruct n as [net children]. cbn [Parameters Network Children].
  now rewrite fold_left_append.
Qed.

Lemma Parameters_subnodes (n : Node) :
  Parameters n = flat_map (fun m => neuralnet.Parameters (Network m)) (subnodes n).
Proof.
  induction n as [net children IH] using Node_Forall_ind.
  rewrite Parameters_unfold. cbn [subnodes flat_map Network Children]. f_equal.
  induction IH as [|c cs Hc _ IHcs]; [reflexivity|].
  cbn [flat_map]. now rewrite flat_map_app, Hc, IHcs.
Qed.

Lemma length_flat_map {A B : Type} (f : A -> list B) (l : list A) :
  length (flat_map f l) = list_sum (map (fun a => length (f a)) l).
Proof.
  induction l as [|a l IH]; [reflexivity|].
  cbn [flat_map map list_sum]. now rewrite length_app, IH.
Qed.

(* ================================================================= *)
(** ** Serialization framing *)

Lemma setIndex_middle {A : Type} (pre : list A) (a x : A) (post : list A) :
  setIndex (pre ++ a :: post) (length pre) x = pre ++ x :: post.
Proof.
  induction pre as [|b pre IH]; cbn [app length setIndex]; [reflexivity|].
  now rewrite IH.
Qed.

Lemma fillChildren_prefix (children : list Node) :
  forall (pre : list Serializer) (k : nat),
    fillChildren (pre ++ repeat SerNil (length children + k)) (length pre) children
    = pre ++ map SerNode children ++ repeat SerNil k.
Proof.
  induction children as [|c cs IH]; intros pre k; cbn [fillChildren length map app].
  - reflexivity.
  - cbn [Nat.add repeat]. rewrite setIndex_middle.
    specialize (IH (pre ++ [SerNode c]) k).
    rewrite length_app, Nat.add_1_r, <- !app_assoc in IH. exact IH.
Qed.

(** The slice handed to the serializer: the children in order, the
    network last. *)
Lemma Serialize_slice (SerializeSlice : list Serializer -> list byte * option errors.error)
    (n : Node) :
  Serialize SerializeSlice n
  = SerializeSlice (map SerNode (Children n) ++ [SerNetwork (Network n)]).
Proof.
  unfold Serialize. f_equal.
  pose proof (fillChildren_prefix (Children n) [] 1) as H.
  cbn [app length] in H. rewrite H. cbn [repeat].
  rewrite length_app, length_map, Nat.add_1_r. cbn [length Nat.sub].
  rewrite Nat.sub_0_r.
  rewrite <- (length_map SerNode (Children n)) at 1.
  apply setIndex_middle.
Qed.

(** A slice that ends in a network is refused all the same: [ok] is
    never assigned before it is tested. *)
Lemma DeserializeNode_network_last
    (DeserializeSlice : list byte -> list Serializer * option errors.error)
    (d : list byte) (pre : list Serializer) (net : neuralnet.Network) :
  DeserializeSlice d = (pre ++ [SerNetwork net], None) ->
  DeserializeNode DeserializeSlice d
  = Ret (None, Some (errors.New "invalid Node slice")).
Proof.
  intros H. unfold DeserializeNode. rewrite H.
  rewrite length_app, Nat.add_1_r. cbn [length Nat.eqb Nat.sub].
  rewrite Nat.sub_0_r, nth_error_app2, Nat.sub_diag by lia. reflexivity.
Qed.

Lemma DeserializeNode_other_last
    (DeserializeSlice : list byte -> list Serializer * option errors.error)
    (d : list byte) (pre : list Serializer) (x : Serializer) :
  DeserializeSlice d = (pre ++ [x], None) ->
  (forall net, x <> SerNetwork net) ->
  DeserializeNode DeserializeSlice d = Abort PanicTypeAssertion.
Proof.
  intros H Hx. unfold DeserializeNode. rewrite H.
  rewrite length_app, Nat.add_1_r. cbn [length Nat.eqb Nat.sub].
  rewrite Nat.sub_0_r, nth_error_app2, Nat.sub_diag by lia.
  cbn [nth_error]. destruct x; try reflexivity. now destruct (Hx net).
Qed.

Lemma DeserializeNode_no_node
    (DeserializeSlice : list byte -> list Serializer * option errors.error)
    (d : list byte) :
  (exists p, DeserializeNode DeserializeSlice d = Abort p) \/
  (exists e, DeserializeNode DeserializeSlice d = Ret (None, Some e)).
Proof.
  unfold DeserializeNode. destruct (DeserializeSlice d) as [lst [e|]].
  - right. now exists e.
  - destruct (Nat.eqb (length lst) 0); [right; eauto|].
    destruct (nth_error lst (length lst - 1)) as [x|];
      [|left; cbn [bind]; eauto].
    destruct x; cbn [assertNetwork bind negb];
      [left; eauto | right; eauto | left; eauto | left; eauto].
Qed.

(* ================================================================= *)
(** ** Facts about the examples *)

Lemma sumExp_uniform2 : sumExp uniform2 = 1.
Proof.
  unfold uniform2, sumExp. cbn [fold_right].
  rewrite exp_ln by lra. lra.
Qed.


Lemma exampleTree_valid : validTree 2 [] exampleTree.
Proof.
  apply validBranch; [discriminate | reflexivity | apply sumExp_uniform2 |].
  repeat constructor; apply sumExp_uniform2.
Qed.


(* ================================================================= *)
(** ** The properties *)

(** C4. For vectors [v1], [v2] of equal length, [logExpSum v1 v2] is,
    with the single shift [m = max (MaxAbs v1) (MaxAbs v2)] shared by
    all entries, the vector of [ln (exp (a - m) + exp (b - m)) + m],
    and in exact arithmetic that vector is the elementwise
    [ln (exp a + exp b)]. *)
Theorem logExpSum_spec (v1 v2 : Vector) :
  length v1 = length v2 ->
  let m := Rmax (linalg.MaxAbs v1) (linalg.MaxAbs v2) in
  logExpSum v1 v2
  = Ret (zipWith (fun a b => ln (exp (a - m) + exp (b - m)) + m) v1 v2)
  /\ zipWith (fun a b => ln (exp (a - m) + exp (b - m)) + m) v1 v2
     = zipWith (fun a b => ln (exp a + exp b)) v1 v2.
Proof.
  intros E m. split.
  - apply logExpSum_shifted, E.
  - apply zipWith_ext. intros a b. apply shift_cancel.
Qed.

Lemma logExpSum_spec_witness :
  length [0; 1] = length [2; -3] /\
  logExpSum [0; 1] [2; -3]
  = Ret (zipWith (fun a b => ln (exp a + exp b)) [0; 1] [2; -3]).
Proof.
  split; [reflexivity|].
  destruct (logExpSum_spec [0; 1] [2; -3] eq_refl) as [Hshift Hexact].
  rewrite Hshift, Hexact. reflexivity.
Defined.

(** C9. For vectors of equal length, [logExpSum v1 v2] and
    [logExpSum v2 v1] are the same vector. *)
Theorem logExpSum_symmetric (v1 v2 : Vector) :
  length v1 = length v2 -> logExpSum v1 v2 = logExpSum v2 v1.
Proof.
  intros E. rewrite !logExpSum_shifted by (assumption || now symmetry).
  rewrite (Rmax_comm (linalg.MaxAbs v2)). f_equal.
  rewrite zipWith_swap. apply zipWith_ext. intros a b.
  now rewrite (Rplus_comm (exp _) (exp _)).
Qed.

Lemma logExpSum_symmetric_witness :
  length [0; 1] = length [2; -3] /\
  logExpSum [0; 1] [2; -3] = logExpSum [2; -3] [0; 1].
Proof.
  split; [reflexivity | apply (logExpSum_symmetric [0; 1] [2; -3]); reflexivity].
Defined.




(** C5. In a valid tree, at every node, [Apply] returns a vector whose
    length is the class count and whose exponentials sum to 1. *)
Theorem Apply_distribution (classCount : nat) (input : Vector) (n : Node) :
  validTree classCount input n ->
  forall m, In m (subnodes n) ->
    exists v : Vector,
      Apply m input = Ret v /\ length v = classCount /\ sumExp v = 1.
Proof.
  intros Hvalid m Hin.
  destruct (validTree_returns classCount input m) as (v & Hv & Hl & Hs).
  - apply (validTree_subnodes classCount input n Hvalid m Hin).
  - exists v. auto.
Qed.

Lemma Apply_distribution_witness :
  validTree 2 [] exampleTree /\
  In exampleTree (subnodes exampleTree) /\
  exists v : Vector,
    Apply exampleTree [] = Ret v /\ length v = 2%nat /\ sumExp v = 1.
Proof.
  split; [apply exampleTree_valid|].
  split; [left; reflexivity|].
  apply (Apply_distribution 2 [] exampleTree exampleTree_valid exampleTree).
  left; reflexivity.
Defined.

(** C6. A node with at least one child whose network gives a number
    of scores different from the number of children makes [Apply] and
    [ApplyR] panic with the message of node.go; a node without
    children returns its network output, so the check is not reached;
    and when every branch network of the tree gives one score per
    child, neither evaluation ends in that panic. *)
Theorem Apply_mismatch_panics :
  (forall n input,
     Children n <> [] ->
     length (neuralnet.Apply (Network n) input) <> length (Children n) ->
     Apply n input = Abort (PanicMsg mismatchMsg)) /\
  (forall n rv input,
     Children n <> [] ->
     length (autofunc.Output (neuralnet.ApplyR (Network n) rv input))
       <> length (Children n) ->
     ApplyR n rv input = Abort (PanicMsg mismatchMsg)) /\
  (forall n input,
     Children n = [] ->
     Apply n input = Ret (neuralnet.Apply (Network n) input)) /\
  (forall n rv input,
     Children n = [] ->
     ApplyR n rv input = Ret (neuralnet.ApplyR (Network n) rv input)) /\
  (forall n input,
     branchesMatch (fun net => neuralnet.Apply net input) n ->
     Apply n input <> Abort (PanicMsg mismatchMsg)) /\
  (forall n rv input,
     branchesMatch (fun net => autofunc.Output (neuralnet.ApplyR net rv input)) n ->
     ApplyR n rv input <> Abort (PanicMsg mismatchMsg)).
Proof.
  repeat split.
  - intros [net children] input. apply Apply_mismatch.
  - intros [net children] rv input. apply ApplyR_mismatch.
  - intros [net children] input Hleaf. cbn [Children Network] in *. subst children.
    apply Apply_leaf.
  - intros [net children] rv input Hleaf. cbn [Children Network] in *. subst children.
    apply ApplyR_leaf.
  - intros n input Hm. apply (Apply_noNodePanic input n Hm).
  - intros n rv input Hm. apply (ApplyR_noNodePanic rv input n Hm).
Qed.

Lemma exampleTree_branchesMatch (out : neuralnet.Network -> Vector) :
  length (out (constNet uniform2 [])) = 2%nat ->
  branchesMatch out exampleTree.
Proof.
  intros H. constructor; [intros _; exact H|].
  repeat constructor; intros Hne; now destruct Hne.
Qed.

Lemma Apply_mismatch_panics_witness :
  Apply mismatchedNode [] = Abort (PanicMsg mismatchMsg) /\
  ApplyR mismatchedNode [] [] = Abort (PanicMsg mismatchMsg) /\
  Apply (leaf [0]) [] = Ret [0] /\
  ApplyR (leaf [0]) [] [] = Ret [(0, 0)] /\
  Apply exampleTree [] <> Abort (PanicMsg mismatchMsg) /\
  ApplyR exampleTree [] [] <> Abort (PanicMsg mismatchMsg).
Proof.
  destruct Apply_mismatch_panics as (H1 & H2 & H3 & H4 & H5 & H6).
  split; [apply (H1 mismatchedNode []); [discriminate | cbn; lia]|].
  split; [apply (H2 mismatchedNode [] []); [discriminate | cbn; lia]|].
  split; [apply (H3 (leaf [0]) []); reflexivity|].
  split; [apply (H4 (leaf [0]) [] []); reflexivity|].
  split.
  - apply (H5 exampleTree []). now apply exampleTree_branchesMatch.
  - apply (H6 exampleTree [] []). now apply exampleTree_branchesMatch.
Defined.



(** C8. [Parameters] is the node's own network parameters followed by
    each child's [Parameters] in child order; over the whole subtree
    it lists the own parameters of every node in node-then-children
    order, and its length is the sum of the own parameter counts. *)
Theorem Parameters_spec (n : Node) :
  Parameters n
  = neuralnet.Parameters (Network n) ++ flat_map Parameters (Children n)
  /\ Parameters n
     = flat_map (fun m => neuralnet.Parameters (Network m)) (subnodes n)
  /\ length (Parameters n)
     = list_sum (map (fun m => length (neuralnet.Parameters (Network m))) (subnodes n)).
Proof.
  split; [apply Parameters_unfold|].
  split; [apply Parameters_subnodes|].
  rewrite Parameters_subnodes. apply length_flat_map.
Qed.

(** C10. [DeserializeNode] never hands back a node: for every input it
    panics or returns nil with an error; a slice of nodes followed by
    a network is answered with the error "invalid Node slice", and so
    is every output of [Serialize] that the serializer decodes back to
    the slice it was given. *)
Theorem DeserializeNode_never_succeeds :
  (forall (DeserializeSlice : list byte -> list Serializer * option errors.error) d,
     (exists p, DeserializeNode DeserializeSlice d = Abort p) \/
     (exists e, DeserializeNode DeserializeSlice d = Ret (None, Some e))) /\
  (forall (DeserializeSlice : list byte -> list Serializer * option errors.error)
          d children net,
     DeserializeSlice d = (map SerNode children ++ [SerNetwork net], None) ->
     DeserializeNode DeserializeSlice d
     = Ret (None, Some (errors.New "invalid Node slice"))) /\
  (forall (SerializeSlice : list Serializer -> list byte * option errors.error)
          (DeserializeSlice : list byte -> list Serializer * option errors.error)
          n node err,
     DeserializeNode DeserializeSlice (fst (Serialize SerializeSlice n))
     <> Ret (Some node, err)).
Proof.
  split; [intros DS d; apply DeserializeNode_no_node|].
  split.
  - intros DS d children net H.
    apply (DeserializeNode_network_last DS d _ net H).
  - intros SS DS n node err E.
    destruct (DeserializeNode_no_node DS (fst (Serialize SS n))) as [[p Hp] | [e He]];
      rewrite E in *; discriminate.
Qed.

Lemma DeserializeNode_never_succeeds_witness :
  demoDeserializeSlice (constNet [0] []) [x01]
  = (map SerNode [] ++ [SerNetwork (constNet [0] [])], None) /\
  DeserializeNode (demoDeserializeSlice (constNet [0] [])) [x01]
  = Ret (None, Some (errors.New "invalid Node slice")).
Proof.
  split; [reflexivity|].
  apply (proj1 (proj2 DeserializeNode_never_succeeds)
           (demoDeserializeSlice (constNet [0] [])) [x01] [] (constNet [0] [])).
  reflexivity.
Defined.

(** C1, on the code. The round trip fails: whenever the serializer
    decodes the bytes of [Serialize n] back to the slice [Serialize]
    gave it, [DeserializeNode] answers nil and the error
    "invalid Node slice" instead of a tree. *)
Theorem Serialize_DeserializeNode_fails
    (SerializeSlice : list Serializer -> list byte * option errors.error)
    (DeserializeSlice : list byte -> list Serializer * option errors.error)
    (n : Node) :
  DeserializeSlice
    (fst (SerializeSlice (map SerNode (Children n) ++ [SerNetwork (Network n)])))
  = (map SerNode (Children n) ++ [SerNetwork (Network n)], None) ->
  DeserializeNode DeserializeSlice (fst (Serialize SerializeSlice n))
  = Ret (None, Some (errors.New "invalid Node slice")).
Proof.
  intros Hround. rewrite Serialize_slice.
  apply (DeserializeNode_network_last DeserializeSlice _ _ (Network n) Hround).
Qed.

Lemma Serialize_DeserializeNode_fails_witness :
  demoDeserializeSlice (constNet [0] [])
    (fst (demoSerializeSlice
            (map SerNode (Children (leaf [0])) ++ [SerNetwork (Network (leaf [0]))])))
  = (map SerNode (Children (leaf [0])) ++ [SerNetwork (Network (leaf [0]))], None) /\
  DeserializeNode (demoDeserializeSlice (constNet [0] []))
    (fst (Serialize demoSerializeSlice (leaf [0])))
  = Ret (None, Some (errors.New "invalid Node slice")).
Proof.
  split; [reflexivity|].
  apply (Serialize_DeserializeNode_fails demoSerializeSlice
           (demoDeserializeSlice (constNet [0] [])) (leaf [0])).
  reflexivity.
Defined.

(** C2, on the code. A decoded slice whose last element is not a
    network makes [DeserializeNode] panic in the single-value type
    assertion instead of returning an error. *)
Theorem DeserializeNode_panics_on_wrong_last
    (DeserializeSlice : list byte -> list Serializer * option errors.error)
    (d : list byte) (pre : list Serializer) (x : Serializer) :
  DeserializeSlice d = (pre ++ [x], None) ->
  (forall net, x <> SerNetwork net) ->
  DeserializeNode DeserializeSlice d = Abort PanicTypeAssertion.
Proof.
  apply DeserializeNode_other_last.
Qed.

Lemma DeserializeNode_panics_on_wrong_last_witness :
  demoDeserializeSlice (constNet [0] []) [x02] = ([] ++ [SerOther "[]byte" [x02]], None) /\
  (forall net, SerOther "[]byte" [x02] <> SerNetwork net) /\
  DeserializeNode (demoDeserializeSlice (constNet [0] [])) [x02]
  = Abort PanicTypeAssertion.
Proof.
  split; [reflexivity|].
  split; [intros net; discriminate|].
  apply (DeserializeNode_panics_on_wrong_last
           (demoDeserializeSlice (constNet [0] [])) [x02] [] (SerOther "[]byte" [x02])).
  - reflexivity.
  - intros net; discriminate.
Defined.

(* ================================================================= *)
(** ** Further properties of the log-sum-exp combinator *)

Lemma ln_mono_le (x y : R) : 0 < x -> x <= y -> ln x <= ln y.
Proof.
  intros Hx [Hlt | ->]; [left; now apply ln_increasing | right; reflexivity].
Qed.

Lemma exp_mono_le (x y : R) : x <= y -> exp x <= exp y.
Proof.
  intros [Hlt | ->]; [left; now apply exp_increasing | right; reflexivity].
Qed.

Lemma zipWith_diag {A C : Type} (f : A -> A -> C) (l : list A) :
  zipWith f l l = map (fun a => f a a) l.
Proof.
  induction l as [|a l IH]; cbn [zipWith map]; [reflexivity | now rewrite IH].
Qed.

(** Both ways of bracketing three vectors of one length. *)
Lemma zipWith_assoc {A : Type} (f : A -> A -> A) (l1 l2 l3 : list A) :
  (forall a b c, f (f a b) c = f a (f b c)) ->
  length l1 = length l2 -> length l2 = length l3 ->
  zipWith f (zipWith f l1 l2) l3 = zipWith f l1 (zipWith f l2 l3).
Proof.
  intros Hf. revert l2 l3.
  induction l1 as [|a l1 IH]; intros [|b l2] [|c l3] H12 H23;
    simpl in H12, H23; try discriminate; cbn [zipWith]; [reflexivity|].
  rewrite Hf, IH by lia. reflexivity.
Qed.

Lemma lse_assoc (a b c : R) :
  ln (exp (ln (exp a + exp b)) + exp c) = ln (exp a + exp (ln (exp b + exp c))).
Proof.
  rewrite !exp_ln by apply exp_sum_pos. f_equal. lra.
Qed.

(** X1. Combining a vector with itself adds [ln 2] to every entry. *)
Theorem logExpSum_self (v : Vector) :
  logExpSum v v = Ret (map (fun a => a + ln 2) v).
Proof.
  rewrite logExpSum_exact by reflexivity. f_equal.
  rewrite zipWith_diag. apply map_ext. intros a.
  replace (exp a + exp a) with (exp a * 2) by lra.
  rewrite ln_mult by (try apply exp_pos; lra).
  now rewrite ln_exp.
Qed.

(** X2. On three vectors of one length, accumulating left to right
    gives the same vector as accumulating right to left. *)
Theorem logExpSum_assoc (v1 v2 v3 : Vector) :
  length v1 = length v2 -> length v2 = length v3 ->
  (r <- logExpSum v1 v2 ;; logExpSum r v3)
  = (r <- logExpSum v2 v3 ;; logExpSum v1 r).
Proof.
  intros H12 H23.
  rewrite (logExpSum_exact v1 v2 H12), (logExpSum_exact v2 v3 H23), !bind_Ret.
  rewrite !logExpSum_exact
    by (rewrite zipWith_length; congruence).
  f_equal. apply (zipWith_assoc (fun a b => ln (exp a + exp b))); auto.
  apply lse_assoc.
Qed.

Lemma logExpSum_assoc_witness :
  length [0; 1] = length [2; -3] /\ length [2; -3] = length [5; 7] /\
  (r <- logExpSum [0; 1] [2; -3] ;; logExpSum r [5; 7])
  = (r <- logExpSum [2; -3] [5; 7] ;; logExpSum [0; 1] r).
Proof.
  split; [reflexivity|]. split; [reflexivity|].
  apply (logExpSum_assoc [0; 1] [2; -3] [5; 7]); reflexivity.
Defined.

(** X3. For vectors of one length, [logExpSum] returns a vector of
    that length, and each of its entries lies between the larger of the
    two entries it combines and that value plus [ln 2]. *)
Theorem logExpSum_bounds (v1 v2 : Vector) :
  length v1 = length v2 ->
  exists r : Vector,
    logExpSum v1 v2 = Ret r /\ length r = length v1 /\
    forall c, (c < length v1)%nat ->
      Rmax (nth c v1 0) (nth c v2 0) <= nth c r 0
      <= Rmax (nth c v1 0) (nth c v2 0) + ln 2.
Proof.
  intros E. exists (zipWith (fun a b => ln (exp a + exp b)) v1 v2).
  split; [apply logExpSum_exact, E|].
  split; [apply zipWith_length, E|].
  intros c Hc. rewrite nth_zipWith_inside with (d1 := 0) (d2 := 0) by assumption.
  set (a := nth c v1 0). set (b := nth c v2 0).
  pose proof (exp_pos a) as Ha. pose proof (exp_pos b) as Hb.
  split.
  - apply Rmax_lub.
    + rewrite <- (ln_exp a) at 1. apply ln_mono_le; lra.
    + rewrite <- (ln_exp b) at 1. apply ln_mono_le; lra.
  - rewrite <- (ln_exp (Rmax a b)), <- ln_mult by (try apply exp_pos; lra).
    apply ln_mono_le; [lra|].
    pose proof (exp_mono_le a (Rmax a b) (Rmax_l a b)).
    pose proof (exp_mono_le b (Rmax a b) (Rmax_r a b)). lra.
Qed.

Lemma logExpSum_bounds_witness :
  length [0; 1] = length [2; -3] /\
  exists r : Vector,
    logExpSum [0; 1] [2; -3] = Ret r /\ length r = length [0; 1] /\
    forall c, (c < length [0; 1])%nat ->
      Rmax (nth c [0; 1] 0) (nth c [2; -3] 0) <= nth c r 0
      <= Rmax (nth c [0; 1] 0) (nth c [2; -3] 0) + ln 2.
Proof.
  split; [reflexivity | apply (logExpSum_bounds [0; 1] [2; -3]); reflexivity].
Defined.





(* ================================================================= *)
(** ** Further properties of [Apply] *)

(** X5. A branch with a single child and a single score [s] hands back
    the child's outcome with [s] added to every entry: no
    [logExpSum] takes place, and a panic of the child is passed on. *)
Theorem Apply_single_child (net : neuralnet.Network) (child : Node)
    (input : Vector) (s : R) :
  neuralnet.Apply net input = [s] ->
  Apply (mkNode net [child]) input
  = fmap (map (fun x => x + s)) (Apply child input).
Proof.
  intros Hs. rewrite Apply_branch by (try discriminate; now rewrite Hs).
  rewrite Hs. cbn [length applyLoop map childAt nth].
  destruct (Apply child input) as [childOut|p]; reflexivity.
Qed.

Lemma Apply_single_child_witness :
  neuralnet.Apply (constNet [0] []) [] = [0] /\
  Apply panicTree []
  = fmap (map (fun x => x + 0)) (Apply mismatchedNode []).
Proof.
  split; [reflexivity|].
  apply (Apply_single_child (constNet [0] []) mismatchedNode [] 0). reflexivity.
Defined.





(* ----------------------------------------------------------------- *)
(** *** The output as a mixture over the leaves *)











(* ----------------------------------------------------------------- *)
(** *** A panic below a branch *)

(** The loop of [Apply] over a first run of children that all return,
    followed by [k] further iterations. *)
Lemma applyLoop_prefix (outs : list Vector) :
  forall (ws : Vector) (pre_o post_o : list (outcome Vector)) (pre_w post_w : Vector)
         (k : nat) (res : option Vector),
    length pre_o = length pre_w ->
    length outs = length ws ->
    applyLoop (childAt (pre_o ++ map Ret outs ++ post_o)) (pre_w ++ ws ++ post_w)
              (length ws + k) (length pre_w) res
    = (r <- accumulate (weightedOuts outs ws) res ;;
       applyLoop (childAt (pre_o ++ map Ret outs ++ post_o)) (pre_w ++ ws ++ post_w)
                 k (length pre_w + length ws) r).
Proof.
  induction outs as [|o outs IH]; intros [|s ws] pre_o post_o pre_w post_w k res Hpre Hlen;
    simpl in Hlen; try discriminate.
  - cbn [length Nat.add weightedOuts zipWith accumulate bind].
    now rewrite Nat.add_0_r.
  - cbn [length Nat.add applyLoop map app]. unfold autofunc.Slice.
    rewrite Slice_single, <- Hpre, childAt_middle, bind_Ret.
    cbn [autofunc.AddFirst bind].
    assert (Hstep : forall r,
      applyLoop (childAt (pre_o ++ Ret o :: map Ret outs ++ post_o))
                (pre_w ++ s :: ws ++ post_w) (length ws + k) (S (length pre_o)) r
      = (r' <- accumulate (weightedOuts outs ws) r ;;
         applyLoop (childAt (pre_o ++ Ret o :: map Ret outs ++ post_o))
                   (pre_w ++ s :: ws ++ post_w) k (length pre_o + S (length ws)) r')).
    { intros r.
      specialize (IH ws (pre_o ++ [Ret o]) post_o (pre_w ++ [s]) post_w k r).
      rewrite <- !app_assoc in IH. cbn [app] in IH.
      rewrite !length_app in IH. cbn [length] in IH.
      rewrite <- Hpre, Nat.add_1_r in IH.
      replace (length pre_o + S (length ws))%nat
        with (S (length pre_o) + length ws)%nat by lia.
      apply IH; lia. }
    destruct res as [r|]; cbn [weightedOuts zipWith accumulate].
    + destruct (logExpSum r (map (fun x => x + s) o)); cbn [bind]; auto.
    + apply Hstep.
Qed.

Lemma accumulate_returns (m : nat) (ws : list Vector) :
  Forall (fun x => length x = m) ws ->
  exists r, accumulate ws None = Ret r.
Proof.
  intros H. destruct H as [|x ws Hx Hws]; cbn [accumulate]; [eauto|].
  rewrite (accumulate_exact m ws x Hws Hx). eauto.
Qed.

(** X8. When the children before child [c] all return vectors of one
    length and [c] panics, the branch panics with the panic of [c]:
    the children after [c] are not evaluated and no value is
    returned. *)
Theorem Apply_child_panic (net : neuralnet.Network) (pre post : list Node)
    (c : Node) (outs : list Vector) (input : Vector) (m : nat) (p : panic) :
  length (neuralnet.Apply net input) = length (pre ++ c :: post) ->
  Forall2 (fun child o => Apply child input = Ret o) pre outs ->
  Forall (fun o => length o = m) outs ->
  Apply c input = Abort p ->
  Apply (mkNode net (pre ++ c :: post)) input = Abort p.
Proof.
  intros Hlen Hpre Hall Hc.
  rewrite Apply_branch by (try exact Hlen; now destruct pre).
  rewrite map_app, (map_Apply_outs _ _ _ Hpre). cbn [map]. rewrite Hc.
  pose proof (Forall2_length Hpre) as Hlo.
  set (scores := neuralnet.Apply net input) in *.
  rewrite length_app in Hlen. cbn [length] in Hlen.
  assert (Hsplit : scores = [] ++ firstn (length outs) scores
                              ++ skipn (length outs) scores)
    by (cbn [app]; now rewrite firstn_skipn).
  assert (Hws : length (firstn (length outs) scores) = length outs)
    by (rewrite length_firstn; unfold autofunc.Result, Vector in *; lia).
  assert (Hn : length scores
               = (length (firstn (length outs) scores) + S (length post))%nat)
    by (rewrite Hws; unfold autofunc.Result, Vector in *; lia).
  rewrite Hsplit at 1. rewrite Hn.
  pose proof (applyLoop_prefix outs (firstn (length outs) scores) []
                (Abort p :: map (fun child => Apply child input) post) []
                (skipn (length outs) scores) (S (length post)) None eq_refl
                (eq_sym Hws)) as Hloop.
  cbn [app length] in Hloop. cbn [app].
  refine (eq_trans (f_equal loopResult Hloop) _).
  destruct (accumulate_returns m (weightedOuts outs (firstn (length outs) scores)))
    as (r & Hr); [now apply weightedOuts_length|].
  rewrite Hr, bind_Ret. cbn [Nat.add applyLoop].
  rewrite Hws, <- (length_map (@Ret Vector) outs), childAt_middle. reflexivity.
Qed.

Lemma Apply_child_panic_witness :
  length (neuralnet.Apply (constNet [0; 0; 0] []) [])
  = length ([leaf [0]] ++ mismatchedNode :: [leaf [0]]) /\
  Forall2 (fun child o => Apply child [] = Ret o) [leaf [0]] [[0]] /\
  Forall (fun o => length o = 1%nat) [[0]] /\
  Apply mismatchedNode [] = Abort (PanicMsg mismatchMsg) /\
  Apply (mkNode (constNet [0; 0; 0] []) ([leaf [0]] ++ mismatchedNode :: [leaf [0]])) []
  = Abort (PanicMsg mismatchMsg).
Proof.
  split; [reflexivity|].
  split; [repeat constructor|].
  split; [repeat constructor|].
  split; [reflexivity|].
  apply (Apply_child_panic (constNet [0; 0; 0] []) [leaf [0]] [leaf [0]]
           mismatchedNode [[0]] [] 1 (PanicMsg mismatchMsg)).
  - reflexivity.
  - repeat constructor.
  - repeat constructor.
  - reflexivity.
Defined.

(* ================================================================= *)
(** ** The binary tree builder *)

Section ConstructionFacts.

Variable Seed : Type.
Variable Randomize : list Layer -> Seed -> neuralnet.Network * Seed.

Lemma NewNodeBinTree_leaf (inSize hiddenSize classCount : nat) (seed : Seed) :
  fst (NewNodeBinTree Seed Randomize 0 inSize hiddenSize classCount seed)
  = mkNode (fst (Randomize [DenseLayer inSize hiddenSize; HyperbolicTangent;
                            DenseLayer hiddenSize classCount; LogSoftmaxLayer] seed)) [].
Proof.
  cbn [NewNodeBinTree]. now destruct (Randomize _ seed).
Qed.

(** The tree of depth [S depth]: a network with two outputs above two
    trees of depth [depth], built from the seeds left by what was
    built before. *)
Lemma NewNodeBinTree_branch (depth inSize hiddenSize classCount : nat) (seed : Seed) :
  exists seed0 seed1,
    fst (NewNodeBinTree Seed Randomize (S depth) inSize hiddenSize classCount seed)
    = mkNode (fst (Randomize [DenseLayer inSize hiddenSize; HyperbolicTangent;
                              DenseLayer hiddenSize 2; LogSoftmaxLayer] seed))
             [fst (NewNodeBinTree Seed Randomize depth inSize hiddenSize classCount seed0);
              fst (NewNodeBinTree Seed Randomize depth inSize hiddenSize classCount seed1)].
Proof.
  cbn [NewNodeBinTree]. destruct (Randomize _ seed) as [net seed0].
  exists seed0.
  destruct (NewNodeBinTree Seed Randomize depth inSize hiddenSize classCount seed0)
    as [child0 seed1].
  exists seed1.
  now destruct (NewNodeBinTree Seed Randomize depth inSize hiddenSize classCount seed1).
Qed.

Lemma NewNodeBinTree_perfect (depth inSize hiddenSize classCount : nat) :
  forall seed,
    perfect depth (fst (NewNodeBinTree Seed Randomize depth inSize hiddenSize classCount seed)).
Proof.
  induction depth as [|depth IH]; intros seed.
  - now rewrite NewNodeBinTree_leaf.
  - destruct (NewNodeBinTree_branch depth inSize hiddenSize classCount seed)
      as (seed0 & seed1 & E).
    rewrite E. cbn [perfect Children]. eauto.
Qed.

Lemma NewNodeBinTree_counts (depth inSize hiddenSize classCount : nat) :
  forall seed,
    (length (subnodes (fst (NewNodeBinTree Seed Randomize depth inSize hiddenSize
                              classCount seed))) + 1 = 2 ^ (depth + 1))%nat /\
    leafCount (fst (NewNodeBinTree Seed Randomize depth inSize hiddenSize
                      classCount seed)) = (2 ^ depth)%nat.
Proof.
  induction depth as [|depth IH]; intros seed.
  - rewrite NewNodeBinTree_leaf. split; reflexivity.
  - destruct (NewNodeBinTree_branch depth inSize hiddenSize classCount seed)
      as (seed0 & seed1 & E).
    rewrite E. destruct (IH seed0) as [Hn0 Hl0]. destruct (IH seed1) as [Hn1 Hl1].
    cbn [subnodes flat_map leafCount map list_sum length].
    rewrite app_nil_r, length_app, Hl0, Hl1.
    replace (S depth + 1)%nat with (S (depth + 1)) by lia.
    rewrite !Nat.pow_succ_r'. split; [lia|].
    unfold list_sum. cbn [fold_right]. lia.
Qed.


End ConstructionFacts.



(** X9. [NewNodeBinTree] builds a perfect binary tree of the requested
    depth: every branch has exactly two children and every leaf lies
    [depth] branches below the root, whatever the sizes and the random
    source. *)
Theorem NewNodeBinTree_is_perfect (Seed : Type)
    (Randomize : list Layer -> Seed -> neuralnet.Network * Seed)
    (depth inSize hiddenSize classCount : nat) (seed : Seed) :
  perfect depth (fst (NewNodeBinTree Seed Randomize depth inSize hiddenSize classCount seed)).
Proof.
  apply NewNodeBinTree_perfect.
Qed.

(** X10. The tree built for depth [d] has [2^(d+1) - 1] nodes, of
    which [2^d] are leaves. *)
Theorem NewNodeBinTree_size (Seed : Type)
    (Randomize : list Layer -> Seed -> neuralnet.Network * Seed)
    (depth inSize hiddenSize classCount : nat) (seed : Seed) :
  length (subnodes (fst (NewNodeBinTree Seed Randomize depth inSize hiddenSize
                           classCount seed)))
  = (2 ^ (depth + 1) - 1)%nat /\
  leafCount (fst (NewNodeBinTree Seed Randomize depth inSize hiddenSize classCount seed))
  = (2 ^ depth)%nat.
Proof.
  destruct (NewNodeBinTree_counts Seed Randomize depth inSize hiddenSize classCount seed)
    as [Hn Hl].
  split; [lia | exact Hl].
Qed.



(* ================================================================= *)
(** ** Further properties of the serialization framing *)

(** X12. [Serialize] hands the serializer a slice of one more element
    than the node has children: the children in child order, then the
    network; what the serializer answers is returned as it is. *)
Theorem Serialize_children_then_network
    (SerializeSlice : list Serializer -> list byte * option errors.error) (n : Node) :
  exists lst : list Serializer,
    Serialize SerializeSlice n = SerializeSlice lst /\
    lst = map SerNode (Children n) ++ [SerNetwork (Network n)] /\
    length lst = (length (Children n) + 1)%nat.
Proof.
  exists (map SerNode (Children n) ++ [SerNetwork (Network n)]).
  split; [apply Serialize_slice|].
  split; [reflexivity|].
  now rewrite length_app, length_map.
Qed.



(** X14. An error of the serializer is returned unchanged with a nil
    node, and an empty decoded slice is answered with the error
    "invalid Node slice"; neither case panics. *)
Theorem DeserializeNode_decode_errors
    (DeserializeSlice : list byte -> list Serializer * option errors.error)
    (d : list byte) :
  (forall e, snd (DeserializeSlice d) = Some e ->
     DeserializeNode DeserializeSlice d = Ret (None, Some e)) /\
  (DeserializeSlice d = ([], None) ->
     DeserializeNode DeserializeSlice d
     = Ret (None, Some (errors.New "invalid Node slice"))).
Proof.
  unfold DeserializeNode. split.
  - intros e He. destruct (DeserializeSlice d) as [lst err].
    cbn [snd] in He. now subst.
  - intros ->. reflexivity.
Qed.

Lemma DeserializeNode_decode_errors_witness :
  demoDeserializeSlice (constNet [0] []) [] = ([], None) /\
  DeserializeNode (demoDeserializeSlice (constNet [0] [])) []
  = Ret (None, Some (errors.New "invalid Node slice")).
Proof.
  split; [reflexivity|].
  apply (proj2 (DeserializeNode_decode_errors
                  (demoDeserializeSlice (constNet [0] [])) [])).
  reflexivity.
Defined.

(* ================================================================= *)
(** ** What a returning evaluation says about the tree *)

(** A loop that returns has seen every child it ran over return. *)
Lemma applyLoop_returns (child : nat -> outcome Vector) (w : Vector) (steps : nat) :
  forall i res r,
    applyLoop child w steps i res = Ret r ->
    forall j, (j < steps)%nat -> exists o, child (i + j)%nat = Ret o.
Proof.
  induction steps as [|steps IH]; intros i res r Hret j Hj; [lia|].
  cbn [applyLoop] in Hret.
  destruct (child i) as [childOut|p] eqn:Hchild; [|discriminate].
  cbn [bind] in Hret.
  destruct (autofunc.AddFirst childOut _) as [weighted|p]; [|discriminate].
  cbn [bind] in Hret.
  destruct j as [|j]; [rewrite Nat.add_0_r; eauto|].
  replace (i + S j)%nat with (S i + j)%nat by lia.
  destruct res as [acc|].
  - destruct (logExpSum acc weighted) as [r'|p]; [|discriminate].
    cbn [bind] in Hret. apply (IH (S i) (Some r') r Hret j). lia.
  - apply (IH (S i) (Some weighted) r Hret j). lia.
Qed.

Lemma childAt_map {A : Type} (f : Node -> outcome A) (children : list Node)
    (j : nat) (c : Node) :
  (j < length children)%nat ->
  childAt (map f children) j = f (nth j children c).
Proof.
  intros Hj. unfold childAt. now apply nth_map_inside.
Qed.

Lemma Apply_returns_sized (input : Vector) (n : Node) :
  forall v, Apply n input = Ret v ->
  branchesMatch (fun net => neuralnet.Apply net input) n.
Proof.
  induction n as [net children IH] using Node_Forall_ind. intros v Hret.
  destruct children as [|c0 cs].
  - constructor; [intros Hne; now destruct Hne | constructor].
  - destruct (Nat.eq_dec (length (neuralnet.Apply net input)) (length (c0 :: cs)))
      as [Hlen | Hlen].
    2:{ rewrite Apply_mismatch in Hret by (try discriminate; exact Hlen). discriminate. }
    rewrite Apply_branch in Hret by (try discriminate; exact Hlen).
    unfold loopResult in Hret.
    destruct (applyLoop _ _ _ _ _) as [r|p] eqn:Hloop; [|discriminate].
    constructor; [intros _; exact Hlen|].
    rewrite Forall_forall in *. intros c Hc.
    destruct (In_nth _ _ c Hc) as (j & Hj & Hnth).
    destruct (applyLoop_returns _ _ _ _ _ _ Hloop j) as (o & Ho).
    { rewrite Hlen. exact Hj. }
    cbn [Nat.add] in Ho. rewrite (childAt_map _ _ j c Hj), Hnth in Ho.
    apply (IH c Hc o Ho).
Qed.

Lemma exampleTree_returns :
  Apply exampleTree [] = Ret (mixture uniform2 [uniform2; uniform2] 2).
Proof.
  unfold exampleTree.
  rewrite (Apply_accumulate _ _ [uniform2; uniform2]);
    [| discriminate | reflexivity | repeat constructor].
  apply accumulate_mixture; [discriminate | reflexivity | repeat constructor].
Qed.

(** X15. [Apply] returns a vector only on a tree in which every
    branch network gives exactly one score per child: a size mismatch
    anywhere in the tree never goes unnoticed. *)
Theorem Apply_returns_only_when_sized (n : Node) (input v : Vector) :
  Apply n input = Ret v ->
  branchesMatch (fun net => neuralnet.Apply net input) n.
Proof.
  apply Apply_returns_sized.
Qed.

Lemma Apply_returns_only_when_sized_witness :
  Apply exampleTree [] = Ret (mixture uniform2 [uniform2; uniform2] 2) /\
  branchesMatch (fun net => neuralnet.Apply net []) exampleTree.
Proof.
  split; [apply exampleTree_returns|].
  apply (Apply_returns_only_when_sized exampleTree []
           (mixture uniform2 [uniform2; uniform2] 2) exampleTree_returns).
Defined.

